(** * carpark_display.py: the windowed car-park display

    A shallow embedding of [WindowedDisplay] and [CarPark_Display] from
    [src/carpark_display.py], and the properties of its specification.

    Python strings are modelled as [string] (a sequence of bytes, so the
    placeholder's dashes are three bytes each); the insertion-ordered
    [dict] is an association list with unique keys; a raised [KeyError]
    leaves the objects mutated so far as they are. *)

From Stdlib Require Import String Ascii List Arith Lia Bool Permutation.
From Stdlib Require Import Decimal DecimalNat DecimalString.
Import ListNotations.

Open Scope list_scope.
Open Scope string_scope.

(** ** Python string methods used by the source *)

Module PyStr.

(** [s.startswith(p)] *)
Definition startswith (s p : string) : bool := String.prefix p s.

(** [c in chars] *)
Fixpoint mem (c : ascii) (chars : string) : bool :=
  match chars with
  | EmptyString => false
  | String c' rest => Ascii.eqb c c' || mem c rest
  end.

(** [s.rstrip(chars)]: drops every trailing character that occurs in
    [chars], not just one. *)
Fixpoint rstrip (chars s : string) : string :=
  match s with
  | EmptyString => EmptyString
  | String c s' =>
      match rstrip chars s' with
      | EmptyString => if mem c chars then EmptyString else String c EmptyString
      | r => String c r
      end
  end.

(** [s.endswith(c)] for a one-character [c]. *)
Fixpoint ends_with (c : ascii) (s : string) : bool :=
  match s with
  | EmptyString => false
  | String c' EmptyString => Ascii.eqb c' c
  | String _ s' => ends_with c s'
  end.

Fixpoint replace_from (skip : nat) (old new s : string) : string :=
  match s with
  | EmptyString => EmptyString
  | String c s' =>
      match skip with
      | S k => replace_from k old new s'
      | O =>
          if String.prefix old s
          then new ++ replace_from (String.length old - 1) old new s'
          else String c (replace_from 0 old new s')
      end
  end.

Fixpoint intersperse (new s : string) : string :=
  match s with
  | EmptyString => new
  | String c s' => new ++ String c (intersperse new s')
  end.

(** [s.replace(old, new)]: every non-overlapping occurrence, left to
    right; an empty [old] matches before every character and at the end. *)
Definition replace (old new s : string) : string :=
  match old with
  | EmptyString => intersperse new s
  | _ => replace_from 0 old new s
  end.

(** [f'{i}'] for a non-negative integer. *)
Definition str_of_nat (i : nat) : string :=
  NilEmpty.string_of_uint (Nat.to_uint i).

End PyStr.

(** ** Insertion-ordered dictionaries with string keys *)

Section Dict.
Context {V : Type}.

Definition dict : Type := list (string * V).

Fixpoint dict_get (k : string) (d : dict) : option V :=
  match d with
  | [] => None
  | (k', v) :: d' => if String.eqb k' k then Some v else dict_get k d'
  end.

(** [d[k] = v]: overwrites in place, or appends a new key at the end. *)
Fixpoint dict_set (k : string) (v : V) (d : dict) : dict :=
  match d with
  | [] => [(k, v)]
  | (k', v') :: d' =>
      if String.eqb k' k then (k', v) :: d' else (k', v') :: dict_set k v d'
  end.

Definition dict_keys (d : dict) : list string := map fst d.
End Dict.

Arguments dict V : clear implicits.

(** ** Exceptions and the state monad the methods run in *)

Inductive exn : Type :=
| KeyError (key : string).

Inductive result (A : Type) : Type :=
| Ok (a : A)
| Raise (e : exn).

Arguments Ok {A} a.
Arguments Raise {A} e.

(** A computation over a mutable store; the store it returns is the one
    left behind, also when an exception propagates. *)
Definition M (S A : Type) : Type := S -> S * result A.

Definition ret {S A} (a : A) : M S A := fun s => (s, Ok a).

Definition bind {S A B} (c : M S A) (k : A -> M S B) : M S B :=
  fun s =>
    match c s with
    | (s', Ok a) => k a s'
    | (s', Raise e) => (s', Raise e)
    end.

Notation "x <- c1 ;; c2" := (bind c1 (fun x => c2))
  (at level 61, c1 at next level, right associativity).
Notation "c1 ;; c2" := (bind c1 (fun _ => c2))
  (at level 61, right associativity).

(** [for x in xs: body(x)] *)
Fixpoint for_each {S A} (xs : list A) (body : A -> M S unit) : M S unit :=
  match xs with
  | [] => ret tt
  | x :: xs' => body x ;; for_each xs' body
  end.

(** [enumerate(xs)], counting from [k]. *)
Fixpoint enumerate_from {A} (k : nat) (xs : list A) : list (nat * A) :=
  match xs with
  | [] => []
  | x :: xs' => (k, x) :: enumerate_from (S k) xs'
  end.

Definition enumerate {A} (xs : list A) : list (nat * A) := enumerate_from 0 xs.

(** ** tkinter objects *)

(** A [tk.Label]: its text, its font and where [grid] has put it. *)
Record Label : Type := mkLabel {
  text : string;
  font : string * nat;
  grid_info : option (nat * nat)
}.

Definition new_Label (t : string) : Label :=
  {| text := t; font := ("Arial", 50); grid_info := None |}.

(** [lbl.grid(row=r, column=c, ...)] *)
Definition grid (r c : nat) (l : Label) : Label :=
  {| text := text l; font := font l; grid_info := Some (r, c) |}.

(** [lbl.configure(text=t)] *)
Definition configure_text (t : string) (l : Label) : Label :=
  {| text := t; font := font l; grid_info := grid_info l |}.

(** [lbl.cget('text')] *)
Definition cget_text (l : Label) : string := text l.

(** The [tk.Tk] root window; [redraws] counts the calls of
    [window.update()], [in_mainloop] is set by [window.mainloop()]. *)
Record Tk : Type := mkTk {
  tk_title : string;
  geometry : string;
  resizable : bool * bool;
  redraws : nat;
  in_mainloop : bool
}.

Definition new_Tk : Tk :=
  {| tk_title := "tk"; geometry := ""; resizable := (true, true);
     redraws := 0; in_mainloop := false |}.

Definition tk_set_title (t : string) (w : Tk) : Tk :=
  {| tk_title := t; geometry := geometry w; resizable := resizable w;
     redraws := redraws w; in_mainloop := in_mainloop w |}.

Definition tk_geometry (g : string) (w : Tk) : Tk :=
  {| tk_title := tk_title w; geometry := g; resizable := resizable w;
     redraws := redraws w; in_mainloop := in_mainloop w |}.

Definition tk_resizable (x y : bool) (w : Tk) : Tk :=
  {| tk_title := tk_title w; geometry := geometry w; resizable := (x, y);
     redraws := redraws w; in_mainloop := in_mainloop w |}.

Definition tk_update (w : Tk) : Tk :=
  {| tk_title := tk_title w; geometry := geometry w; resizable := resizable w;
     redraws := S (redraws w); in_mainloop := in_mainloop w |}.

Definition tk_mainloop (w : Tk) : Tk :=
  {| tk_title := tk_title w; geometry := geometry w; resizable := resizable w;
     redraws := redraws w; in_mainloop := true |}.

(** ** WindowedDisplay *)

Module WindowedDisplay.

Definition DISPLAY_INIT : string := "– – –".
Definition SEP : string := ":".

Record t : Type := mk {
  window : Tk;
  display_fields : list string;
  gui_elements : dict Label
}.

(** The keys [f'lbl_field_{i}'] and [f'lbl_value_{i}']. *)
Definition lbl_field (i : nat) : string := "lbl_field_" ++ PyStr.str_of_nat i.
Definition lbl_value (i : nat) : string := "lbl_value_" ++ PyStr.str_of_nat i.

(** [self.gui_elements[k] = v] *)
Definition setitem (k : string) (v : Label) : M (dict Label) unit :=
  fun g => (dict_set k v g, Ok tt).

(** [self.gui_elements[k]] *)
Definition getitem (k : string) : M (dict Label) Label :=
  fun g =>
    match dict_get k g with
    | Some l => (g, Ok l)
    | None => (g, Raise (KeyError k))
    end.

(** [updated_values[k]] *)
Definition lookup (updated_values : dict string) (k : string)
  : M (dict Label) string :=
  fun g =>
    match dict_get k updated_values with
    | Some v => (g, Ok v)
    | None => (g, Raise (KeyError k))
    end.

(** [self.gui_elements[k].grid(row=r, column=c, ...)]: the label stored
    under [k] is changed where it is. *)
Definition grid_at (k : string) (r c : nat) : M (dict Label) unit :=
  l <- getitem k ;; setitem k (grid r c l).

(** The body of the loop of [__init__]. *)
Definition init_row (row : nat * string) : M (dict Label) unit :=
  let (i, field) := row in
  setitem (lbl_field i) (new_Label (field ++ SEP)) ;;
  setitem (lbl_value i) (new_Label DISPLAY_INIT) ;;
  grid_at (lbl_field i) i 0 ;;
  grid_at (lbl_value i) i 2.

(** [WindowedDisplay(title, display_fields)] *)
Definition init (title : string) (display_fields : list string) : result t :=
  let window :=
    tk_resizable false false
      (tk_geometry "800x400" (tk_set_title (title ++ ": Parking") new_Tk)) in
  match for_each (enumerate display_fields) init_row [] with
  | (g, Ok _) =>
      Ok {| window := window; display_fields := display_fields;
            gui_elements := g |}
  | (_, Raise e) => Raise e
  end.

(** [self.show()] *)
Definition show (self : t) : t :=
  {| window := tk_mainloop (window self);
     display_fields := display_fields self;
     gui_elements := gui_elements self |}.

(** The body of the loop of [update].  Python evaluates the callee
    [self.gui_elements[field_value].configure] before the argument. *)
Definition update_row (updated_values : dict string) (field : string)
  : M (dict Label) unit :=
  if PyStr.startswith field "lbl_field" then
    let field_value := PyStr.replace "field" "value" field in
    target <- getitem field_value ;;
    lbl <- getitem field ;;
    v <- lookup updated_values (PyStr.rstrip SEP (cget_text lbl)) ;;
    setitem field_value (configure_text v target)
  else ret tt.

(** [self.update(updated_values)]: the display as the call leaves it, and
    whether it returned or raised. *)
Definition update (self : t) (updated_values : dict string) : t * result unit :=
  match for_each (dict_keys (gui_elements self)) (update_row updated_values)
          (gui_elements self) with
  | (g, Ok _) =>
      ({| window := tk_update (window self);
          display_fields := display_fields self;
          gui_elements := g |}, Ok tt)
  | (g, Raise e) =>
      ({| window := window self;
          display_fields := display_fields self;
          gui_elements := g |}, Raise e)
  end.

(** What a reader of the window sees in row [i]. *)
Definition field_text (self : t) (i : nat) : option string :=
  option_map text (dict_get (lbl_field i) (gui_elements self)).

Definition value_text (self : t) (i : nat) : option string :=
  option_map text (dict_get (lbl_value i) (gui_elements self)).

End WindowedDisplay.

(** ** The MQTT client and the car-park display *)

Module Paho.

(** A [paho.Client]: its identifier, the broker it is connected to
    (host, port, keep-alive), its subscriptions and the [on_message]
    attribute (set or not). *)
Record Client : Type := mkClient {
  client_id : string;
  connection : option (string * nat * nat);
  subscriptions : list string;
  on_message_set : bool
}.

(** [paho.Client(name)] *)
Definition new (name : string) : Client :=
  {| client_id := name; connection := None; subscriptions := [];
     on_message_set := false |}.

(** [client.connect(host, port, keepalive)] *)
Definition connect (host : string) (port keepalive : nat) (c : Client) : Client :=
  {| client_id := client_id c; connection := Some (host, port, keepalive);
     subscriptions := subscriptions c; on_message_set := on_message_set c |}.

(** [client.subscribe(topic)] *)
Definition subscribe (topic : string) (c : Client) : Client :=
  {| client_id := client_id c; connection := connection c;
     subscriptions := subscriptions c ++ [topic];
     on_message_set := on_message_set c |}.

End Paho.

Module CarPark_Display.

Definition fields : list string := ["Available bays"; "Temperature"; "At"].

Inductive target : Type :=
| check_updates_target.

(** A [threading.Thread]. *)
Record Thread : Type := mkThread {
  thread_target : target;
  daemon : bool;
  started : bool
}.

(** What the main thread has done, in order. *)
Inductive event : Type :=
| Constructed (title : string) (display_fields : list string)
| ThreadStarted (tg : target) (is_daemon : bool)
| EnteredMainloop.

(** The process: the displays built so far, the threads created so far,
    every client the updater has created (oldest first), and the main
    thread's trace. *)
Record Process : Type := mkProcess {
  displays : list WindowedDisplay.t;
  threads : list Thread;
  clients : list Paho.Client;
  trace : list event
}.

Definition empty_process : Process :=
  {| displays := []; threads := []; clients := []; trace := [] |}.

Fixpoint set_nth {A} (i : nat) (f : A -> A) (xs : list A) : list A :=
  match xs, i with
  | [], _ => []
  | x :: xs', O => f x :: xs'
  | x :: xs', S j => x :: set_nth j f xs'
  end.

(** [WindowedDisplay(title, display_fields)], yielding a handle. *)
Definition construct (title : string) (display_fields : list string)
  : M Process nat :=
  fun p =>
    match WindowedDisplay.init title display_fields with
    | Ok d =>
        ({| displays := displays p ++ [d]; threads := threads p;
            clients := clients p;
            trace := trace p ++ [Constructed title display_fields] |},
         Ok (List.length (displays p)))
    | Raise e => (p, Raise e)
    end.

(** [threading.Thread(target=tg)] *)
Definition thread_new (tg : target) : M Process nat :=
  fun p =>
    ({| displays := displays p;
        threads := threads p ++
          [{| thread_target := tg; daemon := false; started := false |}];
        clients := clients p; trace := trace p |},
     Ok (List.length (threads p))).

(** [th.daemon = b] *)
Definition thread_set_daemon (h : nat) (b : bool) : M Process unit :=
  fun p =>
    ({| displays := displays p;
        threads := set_nth h (fun th =>
          {| thread_target := thread_target th; daemon := b;
             started := started th |}) (threads p);
        clients := clients p; trace := trace p |}, Ok tt).

(** [th.start()] *)
Definition thread_start (h : nat) : M Process unit :=
  fun p =>
    ({| displays := displays p;
        threads := set_nth h (fun th =>
          {| thread_target := thread_target th; daemon := daemon th;
             started := true |}) (threads p);
        clients := clients p;
        trace := trace p ++
          match nth_error (threads p) h with
          | Some th => [ThreadStarted (thread_target th) (daemon th)]
          | None => []
          end |}, Ok tt).

(** [self.window.show()]: the main thread stays in the render loop. *)
Definition show_window (h : nat) : M Process unit :=
  fun p =>
    ({| displays := set_nth h WindowedDisplay.show (displays p);
        threads := threads p; clients := clients p;
        trace := trace p ++ [EnteredMainloop] |}, Ok tt).

(** [CarPark_Display.__init__] *)
Definition init : M Process unit :=
  w <- construct "Moondalup" fields ;;
  updater <- thread_new check_updates_target ;;
  thread_set_daemon updater true ;;
  thread_start updater ;;
  show_window w.

(** The module's last line, [CarPark_Display()], in a fresh process. *)
Definition bootstrap : Process * result unit := init empty_process.

Definition PAHO_HOST : string := "localhost".
Definition PAHO_PORT : nat := 1883.
Definition PAHO_KEEP_ALIVE : nat := 300.
Definition PAHO_CLIENT_NAME : string := "car_park_sensor".
Definition PAHO_TOPIC : string := "car_park/data".

(** The local function [on_message_callback]: its body is [pass]. *)
Definition on_message_callback (client : Paho.Client) (userdata : unit)
  (message : string) : M Process unit := ret tt.

(** One pass through the body of [while True:] in [check_updates]: a new
    client is made, connected and subscribed; the callback is defined and
    attached to nothing. *)
Definition check_updates_body : M Process unit :=
  fun p =>
    let client := Paho.new PAHO_CLIENT_NAME in
    let client := Paho.connect PAHO_HOST PAHO_PORT PAHO_KEEP_ALIVE client in
    let client := Paho.subscribe PAHO_TOPIC client in
    ({| displays := displays p; threads := threads p;
        clients := clients p ++ [client]; trace := trace p |}, Ok tt).

(** The first [n] passes of the endless loop of [check_updates]. *)
Fixpoint check_updates (n : nat) : M Process unit :=
  match n with
  | O => ret tt
  | S n' => check_updates_body ;; check_updates n'
  end.

End CarPark_Display.

Import WindowedDisplay.

(** ** The shape of a display, and what [update] does to its values *)

Definition field_label (k : nat) (f : string) : Label :=
  {| text := f ++ SEP; font := ("Arial", 50); grid_info := Some (k, 0) |}.

Definition value_label (k : nat) (v : string) : Label :=
  {| text := v; font := ("Arial", 50); grid_info := Some (k, 2) |}.

(** The elements of the rows [k], [k+1], ... for the given field names
    and displayed values. *)
Fixpoint rows (k : nat) (fields values : list string) : dict Label :=
  match fields, values with
  | f :: fs, v :: vs =>
      (lbl_field k, field_label k f) :: (lbl_value k, value_label k v)
        :: rows (S k) fs vs
  | _, _ => []
  end.

(** The key [update] looks up for the field named [f]: the label's text
    with its trailing separators stripped. *)
Definition lookup_key (f : string) : string := PyStr.rstrip SEP (f ++ SEP).

(** The values shown after [update], row by row, and its outcome. *)
Fixpoint upd_values (p : dict string) (fields values : list string)
  : list string * result unit :=
  match fields, values with
  | f :: fs, v :: vs =>
      match dict_get (lookup_key f) p with
      | Some v' =>
          (v' :: fst (upd_values p fs vs), snd (upd_values p fs vs))
      | None => (v :: vs, Raise (KeyError (lookup_key f)))
      end
  | _, _ => (values, Ok tt)
  end.

(** The displays a program can hold: built by [init], then shown and
    updated any number of times (an [update] that raised included). *)
Inductive reachable : WindowedDisplay.t -> Prop :=
| reach_init title fields d :
    init title fields = Ok d -> reachable d
| reach_show d :
    reachable d -> reachable (show d)
| reach_update d p :
    reachable d -> reachable (fst (update d p)).

(** A payload with a value for every displayed field name. *)
Definition complete (fields : list string) (p : dict string) : Prop :=
  forall f, In f fields -> dict_get f p <> None.

(** A payload whose keys are exactly the field names, in any order. *)
Definition exact (fields : list string) (p : dict string) : Prop :=
  Permutation (dict_keys p) fields.

(** No field name ends with the separator. *)
Definition sep_free (fields : list string) : Prop :=
  forall f, In f fields -> PyStr.ends_with ":" f = false.

(** Every element of [pre] belongs to a row before [k]. *)
Definition keys_below (k : nat) (pre : dict Label) : Prop :=
  forall key, In key (dict_keys pre) ->
    exists j, j < k /\ (key = lbl_field j \/ key = lbl_value j).

(** A display's elements are the rows of its fields, with some values. *)
Definition shaped (d : WindowedDisplay.t) (vs : list string) : Prop :=
  length vs = length (display_fields d) /\
  gui_elements d = rows 0 (display_fields d) vs.

(** The display the process builds when it starts. *)
Definition moondalup : WindowedDisplay.t :=
  {| window :=
       tk_resizable false false
         (tk_geometry "800x400" (tk_set_title "Moondalup: Parking" new_Tk));
     display_fields := CarPark_Display.fields;
     gui_elements := rows 0 CarPark_Display.fields (repeat DISPLAY_INIT 3) |}.

(** The display [init title fields] returns. *)
Definition built (title : string) (fields : list string) : WindowedDisplay.t :=
  {| window :=
       tk_resizable false false
         (tk_geometry "800x400" (tk_set_title (title ++ ": Parking") new_Tk));
     display_fields := fields;
     gui_elements := rows 0 fields (repeat DISPLAY_INIT (length fields)) |}.

(** The keys of the rows [k], ..., [k + n - 1], in insertion order. *)
Definition row_keys (k n : nat) : list string :=
  flat_map (fun i => [lbl_field i; lbl_value i]) (seq k n).

(** The displays a given display can become: shown and updated any
    number of times (an [update] that raised included). *)
Inductive evolves (d : WindowedDisplay.t) : WindowedDisplay.t -> Prop :=
| evolves_refl : evolves d d
| evolves_show d' : evolves d d' -> evolves d (show d')
| evolves_update d' p : evolves d d' -> evolves d (fst (update d' p)).

Fixpoint all_digits (s : string) : bool :=
  match s with
  | EmptyString => true
  | String c s' => PyStr.mem c "0123456789" && all_digits s'
  end.

(** ** Strings *)

Lemma str_of_nat_inj i j : PyStr.str_of_nat i = PyStr.str_of_nat j -> i = j.
Proof.
  unfold PyStr.str_of_nat. intros H.
  apply (f_equal NilEmpty.uint_of_string) in H.
  rewrite !NilEmpty.usu in H.
  rewrite <- (Unsigned.of_to i), <- (Unsigned.of_to j).
  congruence.
Qed.

Lemma string_of_uint_digits d : all_digits (NilEmpty.string_of_uint d) = true.
Proof. induction d; simpl; auto. Qed.

Lemma digit_not_f c : PyStr.mem c "0123456789" = true -> c <> "f"%char.
Proof. intros H ->. vm_compute in H. discriminate. Qed.

Lemma replace_digits s :
  all_digits s = true -> PyStr.replace_from 0 "field" "value" s = s.
Proof.
  induction s as [|c s IH]; [reflexivity|].
  cbn [all_digits PyStr.replace_from prefix].
  intros H. apply andb_prop in H. destruct H as [Hc Hs].
  destruct (ascii_dec "f" c) as [E|_].
  - exfalso. apply (digit_not_f c); auto.
  - now rewrite IH.
Qed.

Lemma replace_lbl_field i :
  PyStr.replace "field" "value" (lbl_field i) = lbl_value i.
Proof.
  unfold lbl_field, lbl_value, PyStr.replace. simpl.
  rewrite replace_digits; [reflexivity|].
  apply string_of_uint_digits.
Qed.

Lemma startswith_lbl_field i : PyStr.startswith (lbl_field i) "lbl_field" = true.
Proof. reflexivity. Qed.

Lemma startswith_lbl_value i : PyStr.startswith (lbl_value i) "lbl_field" = false.
Proof. reflexivity. Qed.

Lemma lbl_field_inj i j : lbl_field i = lbl_field j -> i = j.
Proof.
  unfold lbl_field. simpl. intros H. apply str_of_nat_inj. congruence.
Qed.

Lemma lbl_value_inj i j : lbl_value i = lbl_value j -> i = j.
Proof.
  unfold lbl_value. simpl. intros H. apply str_of_nat_inj. congruence.
Qed.

Lemma lbl_field_value i j : lbl_field i <> lbl_value j.
Proof. unfold lbl_field, lbl_value. simpl. congruence. Qed.

Lemma rstrip_app_sep f : PyStr.rstrip SEP (f ++ SEP) = PyStr.rstrip SEP f.
Proof.
  induction f as [|c f IH]; simpl; [reflexivity|].
  now rewrite IH.
Qed.

Lemma rstrip_sep_free f :
  PyStr.ends_with ":" f = false -> PyStr.rstrip SEP f = f.
Proof.
  induction f as [|c f IH]; [reflexivity|].
  destruct f as [|c' f'].
  - simpl. intros H. unfold SEP. simpl. now rewrite H.
  - intros H. change (PyStr.ends_with ":" (String c' f') = false) in H.
    specialize (IH H).
    change (PyStr.rstrip SEP (String c (String c' f')))
      with (match PyStr.rstrip SEP (String c' f') with
            | EmptyString =>
                if PyStr.mem c SEP then EmptyString else String c EmptyString
            | r => String c r
            end).
    now rewrite IH.
Qed.

Lemma lookup_key_sep_free f :
  PyStr.ends_with ":" f = false -> lookup_key f = f.
Proof.
  intros H. unfold lookup_key. rewrite rstrip_app_sep. now apply rstrip_sep_free.
Qed.

(** ** Dictionaries *)

Section DictFacts.
Context {V : Type}.
Implicit Types (d pre : dict V) (k : string) (v : V).

Lemma dict_get_head k v d : dict_get k ((k, v) :: d) = Some v.
Proof. simpl. now rewrite String.eqb_refl. Qed.

Lemma dict_get_skip k k' v d :
  k' <> k -> dict_get k ((k', v) :: d) = dict_get k d.
Proof. intros H. simpl. apply String.eqb_neq in H. now rewrite H. Qed.

Lemma dict_set_head k v v0 d : dict_set k v ((k, v0) :: d) = (k, v) :: d.
Proof. simpl. now rewrite String.eqb_refl. Qed.

Lemma dict_set_skip k k' v v0 d :
  k' <> k -> dict_set k v ((k', v0) :: d) = (k', v0) :: dict_set k v d.
Proof. intros H. simpl. apply String.eqb_neq in H. now rewrite H. Qed.

Lemma dict_get_app k pre d :
  ~ In k (dict_keys pre) -> dict_get k (pre ++ d)%list = dict_get k d.
Proof.
  induction pre as [|[k' v'] pre IH]; intros H; [reflexivity|].
  simpl in H. rewrite <- app_comm_cons, dict_get_skip by tauto.
  apply IH. tauto.
Qed.

Lemma dict_set_app k v pre d :
  ~ In k (dict_keys pre) ->
  dict_set k v (pre ++ d)%list = (pre ++ dict_set k v d)%list.
Proof.
  induction pre as [|[k' v'] pre IH]; intros H; [reflexivity|].
  simpl in H. rewrite <- !app_comm_cons, dict_set_skip by tauto.
  f_equal. apply IH. tauto.
Qed.

Lemma dict_get_None k d : dict_get k d = None <-> ~ In k (dict_keys d).
Proof.
  induction d as [|[k' v'] d IH]; simpl; [tauto|].
  destruct (String.eqb_spec k' k) as [->|N].
  - split; [discriminate|tauto].
  - rewrite IH. tauto.
Qed.

Lemma dict_keys_app pre d :
  dict_keys (pre ++ d)%list = (dict_keys pre ++ dict_keys d)%list.
Proof. apply map_app. Qed.
End DictFacts.

(** ** Rows and their keys *)

Lemma keys_below_nil k : keys_below k [].
Proof. intros key []. Qed.

Lemma keys_below_field k pre : keys_below k pre -> ~ In (lbl_field k) (dict_keys pre).
Proof.
  intros B H. destruct (B _ H) as (j & Hj & [E|E]).
  - apply lbl_field_inj in E. lia.
  - now apply lbl_field_value in E.
Qed.

Lemma keys_below_value k pre : keys_below k pre -> ~ In (lbl_value k) (dict_keys pre).
Proof.
  intros B H. destruct (B _ H) as (j & Hj & [E|E]).
  - symmetry in E. now apply lbl_field_value in E.
  - apply lbl_value_inj in E. lia.
Qed.

Lemma keys_below_row k pre lf lv :
  keys_below k pre ->
  keys_below (S k) (pre ++ [(lbl_field k, lf); (lbl_value k, lv)])%list.
Proof.
  intros B key H. rewrite dict_keys_app in H. apply in_app_or in H.
  destruct H as [H|H].
  - destruct (B _ H) as (j & Hj & E). exists j. split; [lia|exact E].
  - exists k. split; [lia|]. simpl in H. intuition auto.
Qed.

Lemma rows_cons k f fs v vs :
  rows k (f :: fs) (v :: vs) =
  ([(lbl_field k, field_label k f); (lbl_value k, value_label k v)]
     ++ rows (S k) fs vs)%list.
Proof. reflexivity. Qed.

(** Reading row [k + i] of [rows k fields values]. *)
Lemma rows_get_value fs : forall vs k i,
  length vs = length fs ->
  option_map text (dict_get (lbl_value (k + i)) (rows k fs vs)) = nth_error vs i.
Proof.
  induction fs as [|f fs IH]; intros [|v vs] k i L; simpl in L; try lia.
  { now destruct i. }
  cbn [rows]. rewrite dict_get_skip by apply lbl_field_value.
  destruct i as [|i].
  - rewrite Nat.add_0_r, dict_get_head. reflexivity.
  - rewrite dict_get_skip by (intros E; apply lbl_value_inj in E; lia).
    replace (k + S i) with (S k + i) by lia.
    cbn [nth_error]. apply IH; lia.
Qed.

Lemma rows_get_field fs : forall vs k i,
  length vs = length fs ->
  option_map text (dict_get (lbl_field (k + i)) (rows k fs vs)) =
  option_map (fun f => f ++ SEP) (nth_error fs i).
Proof.
  induction fs as [|f fs IH]; intros [|v vs] k i L; simpl in L; try lia.
  { now destruct i. }
  cbn [rows].
  destruct i as [|i].
  - rewrite Nat.add_0_r, dict_get_head. reflexivity.
  - rewrite dict_get_skip by (intros E; apply lbl_field_inj in E; lia).
    rewrite dict_get_skip by (intros E; symmetry in E; now apply lbl_field_value in E).
    replace (k + S i) with (S k + i) by lia.
    cbn [nth_error]. apply IH; lia.
Qed.

Lemma rows_keys fs : forall vs vs' k,
  length vs = length fs -> length vs' = length fs ->
  dict_keys (rows k fs vs) = dict_keys (rows k fs vs').
Proof.
  induction fs as [|f fs IH]; intros [|v vs] [|v' vs'] k L L'; simpl in L, L';
    try lia; try reflexivity.
  cbn [rows dict_keys map fst]. do 2 f_equal. apply IH; lia.
Qed.

(** ** The two loops *)

Lemma getitem_found k l (g : dict Label) :
  dict_get k g = Some l -> getitem k g = (g, Ok l).
Proof. unfold getitem. now intros ->. Qed.

Lemma dict_set_new {V} k (v : V) (d : dict V) :
  ~ In k (dict_keys d) -> dict_set k v d = (d ++ [(k, v)])%list.
Proof.
  intros H. rewrite <- (app_nil_r d) at 1.
  now rewrite dict_set_app.
Qed.

(** One pass of the loop of [__init__] adds row [k] after the rows
    already there. *)
Lemma init_row_spec k f pre :
  keys_below k pre ->
  init_row (k, f) pre =
  ((pre ++ [(lbl_field k, field_label k f);
            (lbl_value k, value_label k DISPLAY_INIT)])%list, Ok tt).
Proof.
  intros B.
  pose proof (keys_below_field k pre B) as Nf.
  pose proof (keys_below_value k pre B) as Nv.
  unfold init_row, grid_at, bind, setitem.
  rewrite (dict_set_new (lbl_field k)) by exact Nf.
  assert (Nv' : ~ In (lbl_value k)
                  (dict_keys (pre ++ [(lbl_field k, new_Label (f ++ SEP))])%list)).
  { rewrite dict_keys_app. intros H. apply in_app_or in H. destruct H as [H|H].
    - now apply Nv.
    - simpl in H. destruct H as [H|[]]. now apply lbl_field_value in H. }
  rewrite (dict_set_new (lbl_value k)) by exact Nv'.
  replace ((pre ++ [(lbl_field k, new_Label (f ++ SEP))])
             ++ [(lbl_value k, new_Label DISPLAY_INIT)])%list
    with (pre ++ [(lbl_field k, new_Label (f ++ SEP));
                  (lbl_value k, new_Label DISPLAY_INIT)])%list
    by now rewrite <- app_assoc.
  rewrite (getitem_found (lbl_field k) (new_Label (f ++ SEP))).
  2:{ rewrite dict_get_app by exact Nf. apply dict_get_head. }
  rewrite dict_set_app by exact Nf. rewrite dict_set_head.
  rewrite (getitem_found (lbl_value k) (new_Label DISPLAY_INIT)).
  2:{ rewrite dict_get_app by exact Nv.
      rewrite dict_get_skip by apply lbl_field_value. apply dict_get_head. }
  rewrite dict_set_app by exact Nv.
  rewrite dict_set_skip by apply lbl_field_value. rewrite dict_set_head.
  reflexivity.
Qed.

Lemma init_loop fs : forall k pre,
  keys_below k pre ->
  for_each (enumerate_from k fs) init_row pre =
  ((pre ++ rows k fs (repeat DISPLAY_INIT (length fs)))%list, Ok tt).
Proof.
  induction fs as [|f fs IH]; intros k pre B.
  - simpl. now rewrite app_nil_r.
  - cbn [enumerate_from for_each length repeat]. unfold bind.
    rewrite init_row_spec by exact B.
    rewrite IH by now apply keys_below_row.
    rewrite rows_cons, app_assoc. reflexivity.
Qed.

(** [init] never raises, and builds the rows of its fields, all showing
    the placeholder. *)
Lemma init_spec title fields :
  init title fields =
  Ok {| window :=
          tk_resizable false false
            (tk_geometry "800x400" (tk_set_title (title ++ ": Parking") new_Tk));
        display_fields := fields;
        gui_elements := rows 0 fields (repeat DISPLAY_INIT (length fields)) |}.
Proof.
  unfold init, enumerate.
  rewrite (init_loop fields 0 []) by apply keys_below_nil.
  reflexivity.
Qed.

(** One pass of the loop of [update] at a field key, then at its value key. *)
Lemma update_row_field p k f v pre rest :
  keys_below k pre ->
  update_row p (lbl_field k)
    (pre ++ (lbl_field k, field_label k f) :: (lbl_value k, value_label k v)
         :: rest)%list =
  match dict_get (lookup_key f) p with
  | Some v' =>
      ((pre ++ (lbl_field k, field_label k f)
            :: (lbl_value k, value_label k v') :: rest)%list, Ok tt)
  | None =>
      ((pre ++ (lbl_field k, field_label k f)
            :: (lbl_value k, value_label k v) :: rest)%list,
       Raise (KeyError (lookup_key f)))
  end.
Proof.
  intros B.
  pose proof (keys_below_field k pre B) as Nf.
  pose proof (keys_below_value k pre B) as Nv.
  unfold update_row. rewrite startswith_lbl_field, replace_lbl_field.
  unfold bind.
  rewrite (getitem_found (lbl_value k) (value_label k v)).
  2:{ rewrite dict_get_app by exact Nv.
      rewrite dict_get_skip by apply lbl_field_value. apply dict_get_head. }
  rewrite (getitem_found (lbl_field k) (field_label k f)).
  2:{ rewrite dict_get_app by exact Nf. apply dict_get_head. }
  unfold lookup, cget_text. cbn [text field_label].
  fold (lookup_key f).
  destruct (dict_get (lookup_key f) p) as [v'|]; [|reflexivity].
  unfold setitem.
  rewrite dict_set_app by exact Nv.
  rewrite dict_set_skip by apply lbl_field_value. rewrite dict_set_head.
  reflexivity.
Qed.

Lemma update_row_value p k g : update_row p (lbl_value k) g = (g, Ok tt).
Proof. unfold update_row. now rewrite startswith_lbl_value. Qed.

Lemma update_loop p fs : forall vs k pre,
  length vs = length fs ->
  keys_below k pre ->
  for_each (dict_keys (rows k fs vs)) (update_row p) (pre ++ rows k fs vs)%list =
  ((pre ++ rows k fs (fst (upd_values p fs vs)))%list, snd (upd_values p fs vs)).
Proof.
  induction fs as [|f fs IH]; intros [|v vs] k pre L B; simpl in L; try lia.
  - reflexivity.
  - cbn [rows dict_keys map fst for_each upd_values]. unfold bind.
    rewrite update_row_field by exact B.
    destruct (dict_get (lookup_key f) p) as [v'|]; [|reflexivity].
    rewrite update_row_value.
    change (pre ++ (lbl_field k, field_label k f)
                :: (lbl_value k, value_label k v') :: rows (S k) fs vs)%list
      with (pre ++ [(lbl_field k, field_label k f);
                    (lbl_value k, value_label k v')] ++ rows (S k) fs vs)%list.
    rewrite app_assoc.
    change (map fst (rows (S k) fs vs)) with (dict_keys (rows (S k) fs vs)).
    rewrite IH by (try lia; now apply keys_below_row).
    cbn [fst snd rows]. rewrite <- app_assoc. reflexivity.
Qed.

Lemma upd_values_length p fs : forall vs,
  length (fst (upd_values p fs vs)) = length vs.
Proof.
  induction fs as [|f fs IH]; intros [|v vs]; try reflexivity.
  cbn [upd_values]. destruct (dict_get (lookup_key f) p); [|reflexivity].
  cbn [fst length]. now rewrite IH.
Qed.

(** ** Displays in use *)

(** [update] on a display, through [upd_values]. *)
Lemma update_spec d vs p :
  shaped d vs ->
  update d p =
  ({| window := match snd (upd_values p (display_fields d) vs) with
                | Ok _ => tk_update (window d)
                | Raise _ => window d
                end;
      display_fields := display_fields d;
      gui_elements :=
        rows 0 (display_fields d) (fst (upd_values p (display_fields d) vs)) |},
   snd (upd_values p (display_fields d) vs)).
Proof.
  intros [L G]. unfold update. rewrite G.
  pose proof (update_loop p (display_fields d) vs 0 [] L (keys_below_nil 0)) as E.
  rewrite !app_nil_l in E. rewrite E.
  destruct (snd (upd_values p (display_fields d) vs)) as [[]|e]; reflexivity.
Qed.

Lemma update_shaped d vs p :
  shaped d vs ->
  shaped (fst (update d p)) (fst (upd_values p (display_fields d) vs)).
Proof.
  intros H. rewrite (update_spec d vs p H). cbn [fst].
  split; cbn [display_fields gui_elements]; [|reflexivity].
  rewrite upd_values_length. apply H.
Qed.

Lemma update_fields d p : display_fields (fst (update d p)) = display_fields d.
Proof.
  unfold update.
  destruct (for_each _ _ _) as [g [[]|e]]; reflexivity.
Qed.

Lemma reachable_shaped d : reachable d -> exists vs, shaped d vs.
Proof.
  induction 1 as [title fields d E | d _ [vs S] | d p _ [vs S]].
  - rewrite init_spec in E. injection E as <-.
    exists (repeat DISPLAY_INIT (length fields)). split; [|reflexivity].
    apply repeat_length.
  - exists vs. exact S.
  - eexists. apply update_shaped. exact S.
Qed.

Lemma value_text_shaped d vs i : shaped d vs -> value_text d i = nth_error vs i.
Proof.
  intros [L G]. unfold value_text. rewrite G.
  apply (rows_get_value (display_fields d) vs 0 i L).
Qed.

Lemma field_text_shaped d vs i :
  shaped d vs ->
  field_text d i = option_map (fun f => f ++ SEP) (nth_error (display_fields d) i).
Proof.
  intros [L G]. unfold field_text. rewrite G.
  apply (rows_get_field (display_fields d) vs 0 i L).
Qed.

(** ** The values [update] writes *)

Lemma upd_values_idem p fs : forall vs,
  upd_values p fs (fst (upd_values p fs vs)) = upd_values p fs vs.
Proof.
  induction fs as [|f fs IH]; intros [|v vs]; try reflexivity.
  cbn [upd_values]. destruct (dict_get (lookup_key f) p) as [v'|] eqn:E.
  - cbn [fst upd_values]. rewrite ?E, IH. reflexivity.
  - cbn [fst upd_values]. now rewrite ?E.
Qed.

(** Every key present: [update] returns, and each row shows the
    payload's value for its key. *)
Lemma upd_values_present p fs : forall vs,
  length vs = length fs ->
  (forall f, In f fs -> dict_get (lookup_key f) p <> None) ->
  snd (upd_values p fs vs) = Ok tt /\
  forall i f, nth_error fs i = Some f ->
    nth_error (fst (upd_values p fs vs)) i = dict_get (lookup_key f) p.
Proof.
  induction fs as [|f fs IH]; intros [|v vs] L C; simpl in L; try lia.
  - split; [reflexivity|]. intros [|i] f H; discriminate.
  - cbn [upd_values].
    destruct (dict_get (lookup_key f) p) as [v'|] eqn:E.
    2:{ exfalso. apply (C f); [now left|exact E]. }
    destruct (IH vs) as [R V]; [lia | intros g Hg; apply C; now right |].
    split; [exact R|].
    intros [|i] g H; cbn [fst nth_error] in *.
    + injection H as <-. now rewrite E.
    + now apply V.
Qed.

(** A first missing key: [update] raises on it, the rows before it show
    the payload's values and the rows from it on are untouched. *)
Lemma upd_values_missing p pre f post : forall vs,
  length vs = length (pre ++ f :: post)%list ->
  (forall g, In g pre -> dict_get (lookup_key g) p <> None) ->
  dict_get (lookup_key f) p = None ->
  snd (upd_values p (pre ++ f :: post)%list vs) = Raise (KeyError (lookup_key f)) /\
  (forall i g, nth_error pre i = Some g ->
     nth_error (fst (upd_values p (pre ++ f :: post)%list vs)) i =
     dict_get (lookup_key g) p) /\
  (forall i, length pre <= i ->
     nth_error (fst (upd_values p (pre ++ f :: post)%list vs)) i = nth_error vs i).
Proof.
  induction pre as [|g0 pre IH]; intros [|v vs] L C N; simpl in L; try lia.
  - cbn [List.app upd_values]. rewrite N. cbn [fst snd].
    split; [reflexivity|]. split; [|reflexivity].
    intros [|i] g H; discriminate.
  - rewrite <- app_comm_cons. cbn [upd_values].
    destruct (dict_get (lookup_key g0) p) as [v'|] eqn:E.
    2:{ exfalso. apply (C g0); [now left|exact E]. }
    destruct (IH vs) as (R & V & U); [lia | intros g Hg; apply C; now right | exact N |].
    cbn [fst snd]. split; [exact R|]. split.
    + intros [|i] g H; cbn [nth_error] in *.
      * injection H as <-. now rewrite E.
      * now apply V.
    + intros [|i] Hi; cbn [length nth_error] in *; [lia|].
      apply U. lia.
Qed.

(** A list with an absent name has a first absent name. *)
Lemma first_missing (p : dict string) fs :
  (exists f, In f fs /\ dict_get f p = None) ->
  exists pre f post,
    fs = (pre ++ f :: post)%list /\
    (forall g, In g pre -> dict_get g p <> None) /\
    dict_get f p = None.
Proof.
  induction fs as [|f0 fs IH]; intros (f & Hin & N); [destruct Hin|].
  destruct (dict_get f0 p) as [v|] eqn:E.
  - destruct Hin as [->|Hin]; [congruence|].
    destruct IH as (pre & g & post & -> & C & M); [now exists f|].
    exists (f0 :: pre), g, post. split; [reflexivity|]. split; [|exact M].
    intros h [<-|Hh]; [congruence|now apply C].
  - exists [], f0, fs. split; [reflexivity|]. split; [intros g []|exact E].
Qed.

Lemma exact_complete fields p : exact fields p -> complete fields p.
Proof.
  intros E f Hf N. apply dict_get_None in N. apply N.
  apply (Permutation_in f (Permutation_sym E) Hf).
Qed.

Lemma update_outcome d vs p :
  shaped d vs -> snd (update d p) = snd (upd_values p (display_fields d) vs).
Proof. intros S. now rewrite (update_spec d vs p S). Qed.

Lemma update_value_text d vs p i :
  shaped d vs ->
  value_text (fst (update d p)) i =
  nth_error (fst (upd_values p (display_fields d) vs)) i.
Proof. intros S. apply value_text_shaped. now apply update_shaped. Qed.

Lemma update_redraws d vs p :
  shaped d vs ->
  redraws (window (fst (update d p))) =
  match snd (update d p) with
  | Ok _ => S (redraws (window d))
  | Raise _ => redraws (window d)
  end.
Proof.
  intros S. rewrite (update_spec d vs p S). cbn [fst snd window].
  now destruct (snd (upd_values p (display_fields d) vs)).
Qed.

(** ** Construction *)

(** C3. For every list of unique field names, construction succeeds and
    every field then shows the placeholder ["– – –"]. *)
Theorem init_shows_placeholder title fields :
  NoDup fields ->
  exists d,
    init title fields = Ok d /\
    forall i f, nth_error fields i = Some f ->
      value_text d i = Some "– – –".
Proof.
  intros _. exists (built title fields). split; [apply init_spec|].
  intros i f H.
  rewrite (value_text_shaped _ (repeat DISPLAY_INIT (length fields))).
  - change "– – –" with DISPLAY_INIT.
    apply nth_error_repeat. apply nth_error_Some. congruence.
  - split; [apply repeat_length|reflexivity].
Qed.

Lemma init_shows_placeholder_witness :
  NoDup ["A"; "B"] /\
  exists d,
    init "Moondalup" ["A"; "B"] = Ok d /\
    forall i f, nth_error ["A"; "B"] i = Some f ->
      value_text d i = Some "– – –".
Proof.
  assert (U : NoDup ["A"; "B"]).
  { repeat constructor; simpl; intuition discriminate. }
  split; [exact U|].
  exact (init_shows_placeholder "Moondalup" ["A"; "B"] U).
Defined.

(** C4, as the code has it. A list with a duplicate name does not make
    construction fail: rows are keyed by position, so construction
    succeeds with one row per list entry, each labelled with its name and
    showing the placeholder. *)
Theorem init_duplicates_succeeds title fields :
  ~ NoDup fields ->
  exists d,
    init title fields = Ok d /\
    display_fields d = fields /\
    forall i f, nth_error fields i = Some f ->
      field_text d i = Some (f ++ SEP) /\
      value_text d i = Some DISPLAY_INIT.
Proof.
  intros _. eexists. split; [apply init_spec|]. split; [reflexivity|].
  intros i f H.
  assert (S : shaped
    {| window :=
         tk_resizable false false
           (tk_geometry "800x400" (tk_set_title (title ++ ": Parking") new_Tk));
       display_fields := fields;
       gui_elements := rows 0 fields (repeat DISPLAY_INIT (length fields)) |}
    (repeat DISPLAY_INIT (length fields))).
  { split; [apply repeat_length|reflexivity]. }
  split.
  - rewrite (field_text_shaped _ _ i S). cbn [display_fields]. now rewrite H.
  - rewrite (value_text_shaped _ _ i S).
    apply nth_error_repeat. apply nth_error_Some. congruence.
Qed.

Lemma init_duplicates_succeeds_witness :
  ~ NoDup ["At"; "At"] /\
  exists d,
    init "Moondalup" ["At"; "At"] = Ok d /\
    display_fields d = ["At"; "At"] /\
    forall i f, nth_error ["At"; "At"] i = Some f ->
      field_text d i = Some (f ++ SEP) /\
      value_text d i = Some DISPLAY_INIT.
Proof.
  assert (D : ~ NoDup ["At"; "At"]).
  { intros H. inversion H as [|x l N _]. apply N. simpl. auto. }
  split; [exact D|].
  exact (init_duplicates_succeeds "Moondalup" ["At"; "At"] D).
Defined.

(** C4 as stated fails: the list [["At"; "At"]] has a duplicate and
    construction returns a display. *)
Lemma init_duplicate_names_counterexample :
  ~ NoDup ["At"; "At"] /\
  (forall e, init "Moondalup" ["At"; "At"] <> Raise e) /\
  exists d, init "Moondalup" ["At"; "At"] = Ok d.
Proof.
  split; [|split].
  - intros H. inversion H as [|x l N _]. apply N. simpl. auto.
  - intros e. rewrite init_spec. discriminate.
  - eexists. apply init_spec.
Qed.

(** ** update *)

(** X4. With no field name ending in the separator and a payload holding
    every field name, [update] returns, redraws once and every row shows
    the payload's value for its field. *)
Lemma update_complete_ok d p :
  reachable d ->
  sep_free (display_fields d) ->
  complete (display_fields d) p ->
  snd (update d p) = Ok tt /\
  redraws (window (fst (update d p))) = S (redraws (window d)) /\
  forall i f, nth_error (display_fields d) i = Some f ->
    value_text (fst (update d p)) i = dict_get f p.
Proof.
  intros R F C. destruct (reachable_shaped d R) as [vs S].
  destruct (upd_values_present p (display_fields d) vs) as [O V]; [apply S| |].
  { intros f Hf. rewrite lookup_key_sep_free by now apply F. now apply C. }
  rewrite (update_redraws d vs p S), (update_outcome d vs p S), O.
  split; [reflexivity|]. split; [reflexivity|].
  intros i f H. rewrite (update_value_text d vs p i S), (V i f H).
  f_equal. apply lookup_key_sep_free. apply F. eapply nth_error_In, H.
Qed.

(** C1, at the input where the code departs from it: the names are
    unique and the payload's keys are exactly the names, yet [update]
    raises [KeyError] for the stripped name ["Bays"] and the row still
    shows the placeholder. *)
Theorem update_exact_payload_key_error :
  exists d,
    init "Moondalup" ["Bays:"; "At"] = Ok d /\
    NoDup ["Bays:"; "At"] /\
    exact ["Bays:"; "At"] [("At", "14:03:10"); ("Bays:", "042")] /\
    snd (update d [("At", "14:03:10"); ("Bays:", "042")]) = Raise (KeyError "Bays") /\
    value_text (fst (update d [("At", "14:03:10"); ("Bays:", "042")])) 0
      = Some DISPLAY_INIT /\
    dict_get "Bays:" [("At", "14:03:10"); ("Bays:", "042")] = Some "042".
Proof.
  eexists. split; [reflexivity|]. split; [|split; [|split; [|split]]].
  - repeat constructor; simpl; intuition discriminate.
  - unfold exact. simpl. apply perm_swap.
  - reflexivity.
  - reflexivity.
  - reflexivity.
Qed.

(** C10. [update] looks up the label text with all trailing separators
    stripped, so for a display with unique names of which one ends in
    [":"], a payload with exactly the names as keys makes it raise
    [KeyError]: the field ["Temperature:"] is labelled ["Temperature::"],
    the key looked up is ["Temperature"], which is not the field's name
    and not in the payload, although the name itself is. *)
Theorem update_trailing_sep_key_error :
  exists title fields p d,
    NoDup fields /\
    exact fields p /\
    init title fields = Ok d /\
    exists i f,
      nth_error fields i = Some f /\
      f = "Temperature:" /\
      PyStr.ends_with ":" f = true /\
      field_text d i = Some "Temperature::" /\
      PyStr.rstrip ":" "Temperature::" = "Temperature" /\
      "Temperature" <> f /\
      dict_get f p = Some "21" /\
      dict_get "Temperature" p = None /\
      snd (update d p) = Raise (KeyError "Temperature") /\
      value_text (fst (update d p)) i = Some "– – –".
Proof.
  exists "Moondalup", ["Temperature:"], [("Temperature:", "21")].
  eexists. split; [|split; [|split]].
  - repeat constructor. simpl. tauto.
  - apply Permutation_refl.
  - reflexivity.
  - exists 0, "Temperature:".
    repeat (split; [reflexivity|]).
    split; [discriminate|].
    repeat (split; [reflexivity|]). reflexivity.
Qed.

Lemma moondalup_init : init "Moondalup" CarPark_Display.fields = Ok moondalup.
Proof. reflexivity. Qed.

Lemma moondalup_reachable : reachable moondalup.
Proof. exact (reach_init _ _ _ moondalup_init). Qed.

Lemma moondalup_sep_free : sep_free (display_fields moondalup).
Proof. intros f [<-|[<-|[<-|[]]]]; reflexivity. Qed.

(** C2 as stated fails (scenario C of the specification): the payload
    lacks ["Temperature"] and ["At"], [update] raises, and the first row
    has already changed from the placeholder to ["042"]. *)
Lemma update_partial_mutation_counterexample :
  reachable moondalup /\
  In "Temperature" (display_fields moondalup) /\
  dict_get "Temperature" [("Available bays", "042")] = None /\
  snd (update moondalup [("Available bays", "042")])
    = Raise (KeyError "Temperature") /\
  value_text moondalup 0 = Some DISPLAY_INIT /\
  value_text (fst (update moondalup [("Available bays", "042")])) 0 = Some "042" /\
  value_text (fst (update moondalup [("Available bays", "042")])) 0
    <> value_text moondalup 0.
Proof.
  split; [exact moondalup_reachable|].
  split; [simpl; auto|].
  repeat split; try reflexivity.
  vm_compute. discriminate.
Qed.

(** C2, as the code has it. When no field name ends in the separator and
    the payload lacks a field name, [update] raises [KeyError] for the
    first displayed field the payload lacks, without redrawing; the rows
    before that field show the payload's values, and that row and the
    rows after it show what they showed before. *)
Theorem update_missing_key_partial d p :
  reachable d ->
  sep_free (display_fields d) ->
  (exists f, In f (display_fields d) /\ dict_get f p = None) ->
  exists pre f post,
    display_fields d = (pre ++ f :: post)%list /\
    (forall g, In g pre -> dict_get g p <> None) /\
    dict_get f p = None /\
    snd (update d p) = Raise (KeyError f) /\
    (forall i g, nth_error pre i = Some g ->
       value_text (fst (update d p)) i = dict_get g p) /\
    (forall i, length pre <= i ->
       value_text (fst (update d p)) i = value_text d i) /\
    redraws (window (fst (update d p))) = redraws (window d).
Proof.
  intros R F Hm. destruct (reachable_shaped d R) as [vs S].
  destruct (first_missing p (display_fields d) Hm) as (pre & f & post & E & C & N).
  exists pre, f, post.
  assert (Kf : lookup_key f = f).
  { apply lookup_key_sep_free, F. rewrite E. apply in_or_app. right. now left. }
  assert (Kpre : forall g, In g pre -> lookup_key g = g).
  { intros g Hg. apply lookup_key_sep_free, F. rewrite E. apply in_or_app. now left. }
  destruct (upd_values_missing p pre f post vs) as (O & V & U).
  { rewrite <- E. apply S. }
  { intros g Hg. rewrite Kpre by exact Hg. now apply C. }
  { now rewrite Kf. }
  rewrite <- E, Kf in O.
  split; [exact E|]. split; [exact C|]. split; [exact N|].
  rewrite (update_redraws d vs p S), (update_outcome d vs p S), O.
  split; [reflexivity|]. split; [|split; [|reflexivity]].
  - intros i g H. rewrite (update_value_text d vs p i S), E, (V i g H).
    f_equal. apply Kpre. eapply nth_error_In, H.
  - intros i H. rewrite (update_value_text d vs p i S), E, (U i H).
    symmetry. now apply value_text_shaped.
Qed.

Lemma update_missing_key_partial_witness :
  exists pre f post,
    display_fields moondalup = (pre ++ f :: post)%list /\
    (forall g, In g pre -> dict_get g [("Available bays", "042")] <> None) /\
    dict_get f [("Available bays", "042")] = None /\
    snd (update moondalup [("Available bays", "042")]) = Raise (KeyError f) /\
    (forall i g, nth_error pre i = Some g ->
       value_text (fst (update moondalup [("Available bays", "042")])) i
       = dict_get g [("Available bays", "042")]) /\
    (forall i, length pre <= i ->
       value_text (fst (update moondalup [("Available bays", "042")])) i
       = value_text moondalup i) /\
    redraws (window (fst (update moondalup [("Available bays", "042")])))
    = redraws (window moondalup).
Proof.
  apply (update_missing_key_partial moondalup [("Available bays", "042")]).
  - exact moondalup_reachable.
  - exact moondalup_sep_free.
  - exists "At". split; [simpl; auto|reflexivity].
Defined.

(** C6. For every display and every complete payload, [update] leaves
    the field list, the keys of the elements and their order, and the
    text of every field-name label as they were. *)
Theorem update_frame d p :
  reachable d ->
  complete (display_fields d) p ->
  display_fields (fst (update d p)) = display_fields d /\
  dict_keys (gui_elements (fst (update d p))) = dict_keys (gui_elements d) /\
  forall i, field_text (fst (update d p)) i = field_text d i.
Proof.
  intros R _. destruct (reachable_shaped d R) as [vs S].
  pose proof (update_shaped d vs p S) as S'.
  pose proof (update_fields d p) as Ef.
  split; [exact Ef|]. split.
  - destruct S as [L G], S' as [L' G']. rewrite G', G, Ef.
    apply rows_keys; congruence.
  - intros i. rewrite (field_text_shaped _ _ i S'), (field_text_shaped _ _ i S).
    now rewrite Ef.
Qed.

Lemma moondalup_complete :
  complete (display_fields moondalup)
    [("At", "14:03:10"); ("Temperature", "21"); ("Available bays", "042")].
Proof. intros f [<-|[<-|[<-|[]]]]; discriminate. Qed.

Lemma update_frame_witness :
  display_fields
    (fst (update moondalup
       [("At", "14:03:10"); ("Temperature", "21"); ("Available bays", "042")]))
  = display_fields moondalup /\
  dict_keys (gui_elements
    (fst (update moondalup
       [("At", "14:03:10"); ("Temperature", "21"); ("Available bays", "042")])))
  = dict_keys (gui_elements moondalup) /\
  forall i,
    field_text
      (fst (update moondalup
         [("At", "14:03:10"); ("Temperature", "21"); ("Available bays", "042")])) i
    = field_text moondalup i.
Proof.
  exact (update_frame moondalup _ moondalup_reachable moondalup_complete).
Defined.

(** C7. For every display and every complete payload, a second [update]
    with the same payload leaves every element, and so every field's
    displayed value, as the first left it, and ends as the first did. *)
Theorem update_idempotent d p :
  reachable d ->
  complete (display_fields d) p ->
  gui_elements (fst (update (fst (update d p)) p))
    = gui_elements (fst (update d p)) /\
  (forall i, value_text (fst (update (fst (update d p)) p)) i
             = value_text (fst (update d p)) i) /\
  snd (update (fst (update d p)) p) = snd (update d p).
Proof.
  intros R _. destruct (reachable_shaped d R) as [vs S].
  pose proof (update_shaped d vs p S) as S1.
  pose proof (update_fields d p) as Ef.
  assert (G : gui_elements (fst (update (fst (update d p)) p))
              = gui_elements (fst (update d p))).
  { rewrite (update_spec _ _ p S1). cbn [fst gui_elements].
    rewrite Ef, upd_values_idem. destruct S1 as [_ G1].
    rewrite G1, Ef. reflexivity. }
  split; [exact G|]. split.
  - intros i. unfold value_text. now rewrite G.
  - rewrite (update_outcome _ _ p S1), (update_outcome _ _ p S), Ef.
    now rewrite upd_values_idem.
Qed.

Lemma update_idempotent_witness :
  let p := [("At", "14:03:10"); ("Temperature", "21"); ("Available bays", "042")] in
  gui_elements (fst (update (fst (update moondalup p)) p))
    = gui_elements (fst (update moondalup p)) /\
  (forall i, value_text (fst (update (fst (update moondalup p)) p)) i
             = value_text (fst (update moondalup p)) i) /\
  snd (update (fst (update moondalup p)) p) = snd (update moondalup p).
Proof.
  exact (update_idempotent moondalup _ moondalup_reachable moondalup_complete).
Defined.

(** ** The process *)

(** C8. Starting the process builds one display, titled for
    ["Moondalup"] with the fields ["Available bays"], ["Temperature"],
    ["At"], then starts one daemon thread running [check_updates], then
    enters the render loop of that display. *)
Theorem bootstrap_spec :
  init "Moondalup" ["Available bays"; "Temperature"; "At"] = Ok moondalup /\
  CarPark_Display.bootstrap =
  ({| CarPark_Display.displays := [show moondalup];
      CarPark_Display.threads :=
        [{| CarPark_Display.thread_target := CarPark_Display.check_updates_target;
            CarPark_Display.daemon := true;
            CarPark_Display.started := true |}];
      CarPark_Display.clients := [];
      CarPark_Display.trace :=
        [CarPark_Display.Constructed "Moondalup"
           ["Available bays"; "Temperature"; "At"];
         CarPark_Display.ThreadStarted CarPark_Display.check_updates_target true;
         CarPark_Display.EnteredMainloop] |}, Ok tt) /\
  in_mainloop (window (show moondalup)) = true.
Proof. repeat split. Qed.

(** C5, at the point where the code departs from it: [n] passes of the
    loop of [check_updates] create, connect and subscribe [n] clients
    with the fixed constants, so after two passes two connections have
    been opened, not one.  No pass touches a display or sets a message
    callback, and the callback itself does nothing. *)
Theorem check_updates_connects_every_pass :
  let c := {| Paho.client_id := "car_park_sensor";
              Paho.connection := Some ("localhost", 1883, 300);
              Paho.subscriptions := ["car_park/data"];
              Paho.on_message_set := false |} in
  (forall n p,
     CarPark_Display.check_updates n p =
     ({| CarPark_Display.displays := CarPark_Display.displays p;
         CarPark_Display.threads := CarPark_Display.threads p;
         CarPark_Display.clients :=
           (CarPark_Display.clients p ++ repeat c n)%list;
         CarPark_Display.trace := CarPark_Display.trace p |}, Ok tt)) /\
  length (CarPark_Display.clients
            (fst (CarPark_Display.check_updates 2 (fst CarPark_Display.bootstrap))))
  = 2 /\
  (forall cl u m p, CarPark_Display.on_message_callback cl u m p = (p, Ok tt)).
Proof.
  intros c. split; [|split; reflexivity].
  induction n as [|n IH]; intros p.
  - destruct p. cbn [CarPark_Display.check_updates ret repeat].
    cbn [CarPark_Display.displays CarPark_Display.threads
         CarPark_Display.clients CarPark_Display.trace].
    now rewrite app_nil_r.
  - cbn [CarPark_Display.check_updates]. unfold bind.
    unfold CarPark_Display.check_updates_body at 1.
    rewrite IH.
    cbn [CarPark_Display.displays CarPark_Display.threads
         CarPark_Display.clients CarPark_Display.trace repeat].
    rewrite <- app_assoc. reflexivity.
Qed.

(** ** Further properties of the display *)

Lemma built_init title fields : init title fields = Ok (built title fields).
Proof. apply init_spec. Qed.

Lemma built_reachable title fields : reachable (built title fields).
Proof. exact (reach_init _ _ _ (built_init title fields)). Qed.

Lemma lookup_key_rstrip f : lookup_key f = PyStr.rstrip SEP f.
Proof. apply rstrip_app_sep. Qed.

Lemma rstrip_no_trailing_sep s : PyStr.ends_with ":" (PyStr.rstrip SEP s) = false.
Proof.
  induction s as [|c s IH]; [reflexivity|].
  cbn [PyStr.rstrip]. destruct (PyStr.rstrip SEP s) as [|c' r].
  - unfold SEP. cbn [PyStr.mem]. rewrite orb_false_r.
    destruct (Ascii.eqb c ":") eqn:E; [reflexivity|].
    cbn [PyStr.ends_with]. exact E.
  - exact IH.
Qed.

Lemma row_keys_above k n key :
  In key (row_keys k n) ->
  exists j, k <= j /\ (key = lbl_field j \/ key = lbl_value j).
Proof.
  unfold row_keys. intros H. apply in_flat_map in H.
  destruct H as (j & Hj & Hk). apply in_seq in Hj.
  exists j. split; [lia|]. simpl in Hk. intuition auto.
Qed.

Lemma row_keys_NoDup n : forall k, NoDup (row_keys k n).
Proof.
  induction n as [|n IH]; intros k; [constructor|].
  unfold row_keys. cbn [seq flat_map List.app]. fold (row_keys (S k) n).
  constructor; [|constructor; [|apply IH]].
  - intros [E|H]; [symmetry in E; now apply lbl_field_value in E|].
    apply row_keys_above in H. destruct H as (j & Hj & [E|E]).
    + apply lbl_field_inj in E. lia.
    + now apply lbl_field_value in E.
  - intros H. apply row_keys_above in H. destruct H as (j & Hj & [E|E]).
    + symmetry in E. now apply lbl_field_value in E.
    + apply lbl_value_inj in E. lia.
Qed.

Lemma rows_row_keys fs : forall vs k,
  length vs = length fs -> dict_keys (rows k fs vs) = row_keys k (length fs).
Proof.
  induction fs as [|f fs IH]; intros [|v vs] k L; simpl in L; try lia.
  - reflexivity.
  - unfold row_keys. cbn [rows dict_keys map fst length seq flat_map List.app].
    do 2 f_equal. apply IH. lia.
Qed.

Lemma rows_get_value_label fs : forall vs k i,
  length vs = length fs ->
  dict_get (lbl_value (k + i)) (rows k fs vs) =
  option_map (value_label (k + i)) (nth_error vs i).
Proof.
  induction fs as [|f fs IH]; intros [|v vs] k i L; simpl in L; try lia.
  { now destruct i. }
  cbn [rows]. rewrite dict_get_skip by apply lbl_field_value.
  destruct i as [|i].
  - rewrite Nat.add_0_r, dict_get_head. reflexivity.
  - rewrite dict_get_skip by (intros E; apply lbl_value_inj in E; lia).
    replace (k + S i) with (S k + i) by lia.
    cbn [nth_error]. apply IH; lia.
Qed.

Lemma rows_get_field_label fs : forall vs k i,
  length vs = length fs ->
  dict_get (lbl_field (k + i)) (rows k fs vs) =
  option_map (field_label (k + i)) (nth_error fs i).
Proof.
  induction fs as [|f fs IH]; intros [|v vs] k i L; simpl in L; try lia.
  { now destruct i. }
  cbn [rows].
  destruct i as [|i].
  - rewrite Nat.add_0_r, dict_get_head. reflexivity.
  - rewrite dict_get_skip by (intros E; apply lbl_field_inj in E; lia).
    rewrite dict_get_skip by (intros E; symmetry in E; now apply lbl_field_value in E).
    replace (k + S i) with (S k + i) by lia.
    cbn [nth_error]. apply IH; lia.
Qed.

Lemma upd_values_ok_iff p fs : forall vs,
  length vs = length fs ->
  (snd (upd_values p fs vs) = Ok tt <->
   forall f, In f fs -> dict_get (lookup_key f) p <> None).
Proof.
  induction fs as [|f fs IH]; intros [|v vs] L; simpl in L; try lia.
  - split; [intros _ f []|reflexivity].
  - cbn [upd_values]. destruct (dict_get (lookup_key f) p) as [v'|] eqn:E.
    + cbn [snd]. rewrite IH by lia. split.
      * intros H g [<-|Hg]; [congruence|now apply H].
      * intros H g Hg. apply H. now right.
    + cbn [snd]. split; [discriminate|].
      intros H. exfalso. apply (H f); [now left|exact E].
Qed.

Lemma upd_values_ok_indep p fs : forall vs vs',
  length vs = length fs -> length vs' = length fs ->
  snd (upd_values p fs vs) = Ok tt ->
  upd_values p fs vs' = upd_values p fs vs.
Proof.
  induction fs as [|f fs IH]; intros [|v vs] [|v' vs'] L L' O; simpl in L, L';
    try lia; try reflexivity.
  cbn [upd_values] in *. destruct (dict_get (lookup_key f) p); [|discriminate].
  cbn [snd] in O. rewrite (IH vs vs') by (try lia; exact O). reflexivity.
Qed.

Lemma upd_values_agree p p' fs : forall vs,
  (forall f, In f fs -> dict_get (lookup_key f) p = dict_get (lookup_key f) p') ->
  upd_values p fs vs = upd_values p' fs vs.
Proof.
  induction fs as [|f fs IH]; intros [|v vs] A; try reflexivity.
  cbn [upd_values]. rewrite <- (A f) by now left.
  rewrite (IH vs) by (intros g Hg; apply A; now right). reflexivity.
Qed.

Lemma upd_values_raise p fs e : forall vs,
  snd (upd_values p fs vs) = Raise e ->
  exists pre f post,
    fs = (pre ++ f :: post)%list /\
    e = KeyError (lookup_key f) /\
    dict_get (lookup_key f) p = None /\
    forall g, In g pre -> dict_get (lookup_key g) p <> None.
Proof.
  induction fs as [|f fs IH]; intros [|v vs] R; try discriminate.
  cbn [upd_values] in R. destruct (dict_get (lookup_key f) p) as [v'|] eqn:E.
  - cbn [snd] in R. destruct (IH vs R) as (pre & g & post & -> & He & N & C).
    exists (f :: pre), g, post. split; [reflexivity|]. split; [exact He|].
    split; [exact N|]. intros h [<-|Hh]; [congruence|now apply C].
  - cbn [snd] in R. injection R as <-.
    exists [], f, fs. split; [reflexivity|]. split; [reflexivity|].
    split; [exact E|]. intros g [].
Qed.

(** X1. Every display in use has exactly the elements [__init__] laid
    out: the keys [lbl_field_i], [lbl_value_i] for each row in order,
    without repetition; row [i] holds the field label (name and
    separator) at column 0 and a value label at column 2 of grid row
    [i]; there is no row beyond the fields. *)
Theorem reachable_layout d :
  reachable d ->
  dict_keys (gui_elements d) = row_keys 0 (length (display_fields d)) /\
  NoDup (dict_keys (gui_elements d)) /\
  (forall i f, nth_error (display_fields d) i = Some f ->
     dict_get (lbl_field i) (gui_elements d) =
       Some {| text := f ++ SEP; font := ("Arial", 50); grid_info := Some (i, 0) |} /\
     exists v,
       dict_get (lbl_value i) (gui_elements d) =
         Some {| text := v; font := ("Arial", 50); grid_info := Some (i, 2) |}) /\
  (forall i, length (display_fields d) <= i ->
     dict_get (lbl_field i) (gui_elements d) = None /\
     dict_get (lbl_value i) (gui_elements d) = None).
Proof.
  intros R. destruct (reachable_shaped d R) as [vs [L G]]. rewrite G.
  pose proof (rows_row_keys (display_fields d) vs 0 L) as K.
  split; [exact K|]. split; [rewrite K; apply row_keys_NoDup|]. split.
  - intros i f H.
    pose proof (rows_get_field_label (display_fields d) vs 0 i L) as F.
    pose proof (rows_get_value_label (display_fields d) vs 0 i L) as V.
    cbn [Nat.add] in F, V. rewrite F, V, H. split; [reflexivity|].
    destruct (nth_error vs i) as [v|] eqn:E.
    + exists v. reflexivity.
    + apply nth_error_None in E.
      assert (i < length (display_fields d)) by (apply nth_error_Some; congruence).
      lia.
  - intros i H.
    pose proof (rows_get_field_label (display_fields d) vs 0 i L) as F.
    pose proof (rows_get_value_label (display_fields d) vs 0 i L) as V.
    cbn [Nat.add] in F, V. rewrite F, V.
    assert (E1 : nth_error (display_fields d) i = None) by now apply nth_error_None.
    assert (E2 : nth_error vs i = None) by (apply nth_error_None; lia).
    now rewrite E1, E2.
Qed.

Lemma reachable_layout_witness :
  let d := fst (update (built "Moondalup" ["A"; "B"]) [("A", "5")]) in
  dict_keys (gui_elements d) = row_keys 0 (length (display_fields d)) /\
  NoDup (dict_keys (gui_elements d)) /\
  (forall i f, nth_error (display_fields d) i = Some f ->
     dict_get (lbl_field i) (gui_elements d) =
       Some {| text := f ++ SEP; font := ("Arial", 50); grid_info := Some (i, 0) |} /\
     exists v,
       dict_get (lbl_value i) (gui_elements d) =
         Some {| text := v; font := ("Arial", 50); grid_info := Some (i, 2) |}) /\
  (forall i, length (display_fields d) <= i ->
     dict_get (lbl_field i) (gui_elements d) = None /\
     dict_get (lbl_value i) (gui_elements d) = None).
Proof.
  exact (reachable_layout _
           (reach_update _ [("A", "5")] (built_reachable "Moondalup" ["A"; "B"]))).
Defined.

(** X2. [update] returns exactly when the payload has a key for every
    field name with its trailing separators stripped. *)
Theorem update_returns_iff d p :
  reachable d ->
  (snd (update d p) = Ok tt <->
   forall f, In f (display_fields d) -> dict_get (PyStr.rstrip SEP f) p <> None).
Proof.
  intros R. destruct (reachable_shaped d R) as [vs S].
  rewrite (update_outcome d vs p S).
  rewrite (upd_values_ok_iff p (display_fields d) vs) by apply S.
  split; intros H f Hf.
  - rewrite <- lookup_key_rstrip. now apply H.
  - rewrite lookup_key_rstrip. now apply H.
Qed.

Lemma update_returns_iff_witness :
  snd (update (built "Moondalup" ["A:"; "B"]) [("B", "9"); ("A", "5")]) = Ok tt <->
  forall f, In f (display_fields (built "Moondalup" ["A:"; "B"])) ->
    dict_get (PyStr.rstrip SEP f) [("B", "9"); ("A", "5")] <> None.
Proof.
  exact (update_returns_iff _ _ (built_reachable "Moondalup" ["A:"; "B"])).
Defined.

(** X3. When [update] raises, the exception is [KeyError] for the
    stripped name of the first field, in display order, whose stripped
    name the payload lacks; nothing is redrawn, the rows before that
    field show the payload's values and the rows from it on are as
    before. *)
Theorem update_raise_first_missing d p e :
  reachable d ->
  snd (update d p) = Raise e ->
  exists pre f post,
    display_fields d = (pre ++ f :: post)%list /\
    e = KeyError (PyStr.rstrip SEP f) /\
    dict_get (PyStr.rstrip SEP f) p = None /\
    (forall g, In g pre -> dict_get (PyStr.rstrip SEP g) p <> None) /\
    (forall i g, nth_error pre i = Some g ->
       value_text (fst (update d p)) i = dict_get (PyStr.rstrip SEP g) p) /\
    (forall i, length pre <= i ->
       value_text (fst (update d p)) i = value_text d i) /\
    redraws (window (fst (update d p))) = redraws (window d).
Proof.
  intros R Hr. destruct (reachable_shaped d R) as [vs S].
  rewrite (update_redraws d vs p S), Hr.
  rewrite (update_outcome d vs p S) in Hr.
  destruct (upd_values_raise p _ e vs Hr) as (pre & f & post & E & He & N & C).
  destruct (upd_values_missing p pre f post vs) as (_ & V & U);
    [rewrite <- E; apply S | exact C | exact N |].
  exists pre, f, post. rewrite <- !lookup_key_rstrip.
  split; [exact E|]. split; [exact He|]. split; [exact N|]. split.
  { intros g Hg. rewrite <- lookup_key_rstrip. now apply C. }
  split; [|split; [|reflexivity]].
  - intros i g H. rewrite (update_value_text d vs p i S), E, (V i g H).
    now rewrite lookup_key_rstrip.
  - intros i H. rewrite (update_value_text d vs p i S), E, (U i H).
    symmetry. now apply value_text_shaped.
Qed.

Lemma update_raise_first_missing_witness :
  let d := built "Moondalup" ["A"; "B:"; "C"] in
  let p := [("A", "1"); ("B:", "2"); ("C", "3")] in
  exists pre f post,
    display_fields d = (pre ++ f :: post)%list /\
    KeyError "B" = KeyError (PyStr.rstrip SEP f) /\
    dict_get (PyStr.rstrip SEP f) p = None /\
    (forall g, In g pre -> dict_get (PyStr.rstrip SEP g) p <> None) /\
    (forall i g, nth_error pre i = Some g ->
       value_text (fst (update d p)) i = dict_get (PyStr.rstrip SEP g) p) /\
    (forall i, length pre <= i ->
       value_text (fst (update d p)) i = value_text d i) /\
    redraws (window (fst (update d p))) = redraws (window d).
Proof.
  apply (update_raise_first_missing (built "Moondalup" ["A"; "B:"; "C"])
           [("A", "1"); ("B:", "2"); ("C", "3")] (KeyError "B")).
  - apply built_reachable.
  - reflexivity.
Defined.

Lemma update_complete_ok_witness :
  let d := built "Moondalup" ["A"; "B"] in
  let p := [("B", "9"); ("A", "5")] in
  snd (update d p) = Ok tt /\
  redraws (window (fst (update d p))) = S (redraws (window d)) /\
  forall i f, nth_error (display_fields d) i = Some f ->
    value_text (fst (update d p)) i = dict_get f p.
Proof.
  apply (update_complete_ok (built "Moondalup" ["A"; "B"]) [("B", "9"); ("A", "5")]).
  - apply built_reachable.
  - intros f [<-|[<-|[]]]; reflexivity.
  - intros f [<-|[<-|[]]]; discriminate.
Defined.

(** X5. The last call wins: when [update] with a payload returns, the
    elements it leaves do not depend on an [update] made before it,
    whether that one returned or raised half way. *)
Theorem update_last_wins d p1 p2 :
  reachable d ->
  snd (update d p2) = Ok tt ->
  snd (update (fst (update d p1)) p2) = Ok tt /\
  gui_elements (fst (update (fst (update d p1)) p2))
    = gui_elements (fst (update d p2)).
Proof.
  intros R O. destruct (reachable_shaped d R) as [vs S].
  pose proof (update_shaped d vs p1 S) as S1.
  pose proof (update_fields d p1) as Ef.
  rewrite (update_outcome d vs p2 S) in O.
  assert (E : upd_values p2 (display_fields d)
                (fst (upd_values p1 (display_fields d) vs))
              = upd_values p2 (display_fields d) vs).
  { apply upd_values_ok_indep; [apply S | | exact O].
    rewrite upd_values_length. apply S. }
  split.
  - rewrite (update_outcome _ _ p2 S1), Ef, E. exact O.
  - rewrite (update_spec _ _ p2 S1), (update_spec d vs p2 S).
    cbn [fst gui_elements]. now rewrite Ef, E.
Qed.

Lemma update_last_wins_witness :
  let d := built "Moondalup" ["A"; "B"] in
  let p1 := [("A", "5")] in
  let p2 := [("A", "7"); ("B", "9")] in
  snd (update (fst (update d p1)) p2) = Ok tt /\
  gui_elements (fst (update (fst (update d p1)) p2))
    = gui_elements (fst (update d p2)).
Proof.
  apply (update_last_wins (built "Moondalup" ["A"; "B"])
           [("A", "5")] [("A", "7"); ("B", "9")]).
  - apply built_reachable.
  - reflexivity.
Defined.

(** X6. [update] reads the payload only at the stripped field names:
    two payloads that agree there (whatever their order and their other
    keys) leave the same display and the same outcome. *)
Theorem update_reads_stripped_names_only d p p' :
  reachable d ->
  (forall f, In f (display_fields d) ->
     dict_get (PyStr.rstrip SEP f) p = dict_get (PyStr.rstrip SEP f) p') ->
  update d p = update d p'.
Proof.
  intros R A. destruct (reachable_shaped d R) as [vs S].
  rewrite (update_spec d vs p S), (update_spec d vs p' S).
  rewrite (upd_values_agree p p' (display_fields d) vs); [reflexivity|].
  intros f Hf. rewrite lookup_key_rstrip. now apply A.
Qed.

Lemma update_reads_stripped_names_only_witness :
  update (built "Moondalup" ["A"; "B"]) [("A", "5"); ("B", "9")]
  = update (built "Moondalup" ["A"; "B"]) [("Z", "0"); ("B", "9"); ("A", "5")].
Proof.
  apply (update_reads_stripped_names_only (built "Moondalup" ["A"; "B"])).
  - apply built_reachable.
  - intros f [<-|[<-|[]]]; reflexivity.
Defined.

(** X7. After an [update] that returned, two rows whose names are equal
    once trailing separators are stripped (duplicates, or ["A"] and
    ["A:"]) show the same value. *)
Theorem update_same_key_same_value d p i j f g :
  reachable d ->
  snd (update d p) = Ok tt ->
  nth_error (display_fields d) i = Some f ->
  nth_error (display_fields d) j = Some g ->
  PyStr.rstrip SEP f = PyStr.rstrip SEP g ->
  value_text (fst (update d p)) i = value_text (fst (update d p)) j.
Proof.
  intros R O Hi Hj E. destruct (reachable_shaped d R) as [vs S].
  rewrite (update_outcome d vs p S) in O.
  rewrite (upd_values_ok_iff p (display_fields d) vs) in O by apply S.
  destruct (upd_values_present p (display_fields d) vs) as [_ V];
    [apply S | exact O |].
  rewrite !(update_value_text d vs p _ S), (V i f Hi), (V j g Hj).
  now rewrite !lookup_key_rstrip, E.
Qed.

Lemma update_same_key_same_value_witness :
  value_text (fst (update (built "Moondalup" ["A"; "A:"]) [("A", "5")])) 0
  = value_text (fst (update (built "Moondalup" ["A"; "A:"]) [("A", "5")])) 1.
Proof.
  apply (update_same_key_same_value (built "Moondalup" ["A"; "A:"])
           [("A", "5")] 0 1 "A" "A:"); try reflexivity.
  apply built_reachable.
Defined.

(** X8. The key arithmetic of [update] is right for every row index,
    however many digits it has: a field key is recognised, a value key
    is skipped, replacing ["field"] by ["value"] in the field key of row
    [i] gives the value key of row [i], and different rows have
    different keys. *)
Theorem update_key_pairing i j :
  PyStr.startswith (lbl_field i) "lbl_field" = true /\
  PyStr.startswith (lbl_value i) "lbl_field" = false /\
  PyStr.replace "field" "value" (lbl_field i) = lbl_value i /\
  (lbl_field i = lbl_field j <-> i = j) /\
  (lbl_value i = lbl_value j <-> i = j) /\
  lbl_field i <> lbl_value j.
Proof.
  split; [reflexivity|]. split; [reflexivity|].
  split; [apply replace_lbl_field|].
  split; [split; [apply lbl_field_inj|now intros ->]|].
  split; [split; [apply lbl_value_inj|now intros ->]|].
  apply lbl_field_value.
Qed.

(** X9. Recovering a name from its label (name, then separator) by
    stripping separators gives the name back exactly when the name does
    not end with the separator; the recovered key never ends with it. *)
Theorem label_name_round_trip f :
  (PyStr.rstrip SEP (f ++ SEP) = f <-> PyStr.ends_with ":" f = false) /\
  PyStr.ends_with ":" (PyStr.rstrip SEP (f ++ SEP)) = false.
Proof.
  split; [|apply rstrip_no_trailing_sep].
  split.
  - intros E. rewrite <- E at 1. apply rstrip_no_trailing_sep.
  - intros H. rewrite rstrip_app_sep. now apply rstrip_sep_free.
Qed.

(** X10. The window of a display keeps what [__init__] gave it through
    every [show] and [update]: the title is the title passed to the
    constructor followed by [": Parking"], the size is 800x400 and
    resizing is off in both directions. *)
Theorem window_configuration_kept title fields d d' :
  init title fields = Ok d ->
  evolves d d' ->
  tk_title (window d') = title ++ ": Parking" /\
  geometry (window d') = "800x400" /\
  resizable (window d') = (false, false).
Proof.
  intros E H. induction H as [| d' _ IH | d' p _ IH].
  - rewrite init_spec in E. injection E as <-. cbn.
    split; [reflexivity|]. split; reflexivity.
  - exact IH.
  - unfold update. destruct (for_each _ _ _) as [g [[]|e]]; exact IH.
Qed.

Lemma window_configuration_kept_witness :
  let d := built "Moondalup" ["A"; "B"] in
  let d' := fst (update (show (fst (update d [("A", "5")])))
                   [("A", "7"); ("B", "9")]) in
  tk_title (window d') = "Moondalup" ++ ": Parking" /\
  geometry (window d') = "800x400" /\
  resizable (window d') = (false, false).
Proof.
  apply (window_configuration_kept "Moondalup" ["A"; "B"]
           (built "Moondalup" ["A"; "B"])).
  - reflexivity.
  - apply evolves_update, evolves_show, evolves_update, evolves_refl.
Defined.
